(** * relativistic_quantum_equation.py: explicit marching of a scalar field
      on a cubic grid

    A shallow embedding of the numerical core of the script: grid
    construction, the roll-based Laplacian and biharmonic stencils, the
    marching recurrence with its Dirichlet boundary overwrite, and the frame
    list built by the time-stepping loop.

    Arithmetic.  The script computes in IEEE double precision.  The main
    development reads a scalar as a real number.  The operators are also
    written once over an arbitrary scalar arithmetic ([arith]), of which the
    reals are one instance and binary64 floats ([float_arith]) another; the
    float instance is what the script computes, and it is used to show where
    a statement that holds of the reals fails of the program.

    Arrays.  A numpy array of shape (n,n,n) is a list of planes, a plane a
    list of rows, a row a list of scalars, in C order (axis 0 outermost).
    Arrays that the script names live in a store and variables hold
    locations, so that an in-place slice assignment and a slice taken as a
    view are visible as such. *)

From Stdlib Require Import Reals Lra Lia ZArith List Arith Permutation.
From Stdlib Require Import PrimFloat.
Import ListNotations.
Local Open Scope R_scope.

(** ** Arrays *)

Abbreviation Row := (list R) (only parsing).
Abbreviation Plane := (list (list R)) (only parsing).
Abbreviation Field3D := (list (list (list R))) (only parsing).

(** [u[i, j, k]] for indices in range. *)
Definition get (a : Field3D) (i j k : nat) : R :=
  nth k (nth j (nth i a []) []) 0.

(** The array has shape (n,n,n). *)
Definition shape2 (n : nat) (p : Plane) : Prop :=
  length p = n /\ Forall (fun r : Row => length r = n) p.

Definition shape3 (n : nat) (a : Field3D) : Prop :=
  length a = n /\ Forall (shape2 n) a.

(** An index taken modulo the axis length: [-1] is [n-1], [n] is [0]. *)
Definition wrap (n : nat) (z : Z) : nat :=
  Z.to_nat (z mod Z.of_nat n).

(** [np.roll(a, shift)] along the axis of a list: the element at [i] moves
    to [i + shift], modulo the length. *)
Definition roll {A : Type} (shift : Z) (a : list A) : list A :=
  match a with
  | [] => a
  | _ :: _ =>
      let k := Z.to_nat ((- shift) mod Z.of_nat (length a)) in
      skipn k a ++ firstn k a
  end.

(** [np.roll(a, shift, axis=axis)] on a three-dimensional array. *)
Definition roll_axis (shift : Z) (axis : nat) (a : Field3D) : Field3D :=
  match axis with
  | O => roll shift a
  | S O => map (roll shift) a
  | _ => map (map (roll shift)) a
  end.

Fixpoint map2 {A B C : Type} (f : A -> B -> C) (l1 : list A) (l2 : list B)
  : list C :=
  match l1, l2 with
  | x :: xs, y :: ys => f x y :: map2 f xs ys
  | _, _ => []
  end.

(** Element-wise binary operation on arrays of one shape. *)
Definition ewise (f : R -> R -> R) (a b : Field3D) : Field3D :=
  map2 (map2 (map2 f)) a b.

(** Element-wise unary operation. *)
Definition emap (f : R -> R) (a : Field3D) : Field3D :=
  map (map (map f)) a.

Definition add3 : Field3D -> Field3D -> Field3D := ewise Rplus.
Definition sub3 : Field3D -> Field3D -> Field3D := ewise Rminus.
(** [c * a] for a scalar [c]. *)
Definition smul3 (c : R) : Field3D -> Field3D := emap (Rmult c).
(** [a / d] for a scalar [d]. *)
Definition sdiv3 (a : Field3D) (d : R) : Field3D := emap (fun x => x / d) a.

(** [np.copy], [np.zeros_like]. *)
Definition copy (a : Field3D) : Field3D := emap (fun x => x) a.
Definition zeros_like (a : Field3D) : Field3D := emap (fun _ => 0) a.


(** Apply [f] to the element at index [i]; nothing happens out of range. *)
Fixpoint upd {A : Type} (i : nat) (f : A -> A) (l : list A) : list A :=
  match l, i with
  | [], _ => []
  | x :: xs, O => f x :: xs
  | x :: xs, S i' => x :: upd i' f xs
  end.

(** Index [-1] of an axis. *)
Definition last_idx {A : Type} (l : list A) : nat := length l - 1.

(** ** Grid *)

(** [np.linspace(start, stop, num)] with the default [endpoint=True], for
    [num >= 0]: [arange(num)] scaled by [step = (stop - start) / (num - 1)],
    shifted by [start], the last sample overwritten with [stop]. *)
Definition linspace (start stop : R) (num : nat) : list R :=
  let div := (num - 1)%nat in
  let delta := stop - start in
  let y := map INR (seq 0 num) in
  let y :=
    match div with
    | O => map (fun v => v * delta) y
    | S _ =>
        let step := delta / INR div in
        if Req_dec_T step 0
        then map (fun v => v / INR div * delta) y
        else map (fun v => v * step) y
    end in
  let y := map (fun v => v + start) y in
  if (1 <? num)%nat then upd (last_idx y) (fun _ => stop) y else y.

(** [np.sin(np.pi * X) * np.sin(np.pi * Y) * np.sin(np.pi * Z)] over
    [np.meshgrid(x, y, z, indexing='ij')]. *)
Definition initial_condition (x y z : list R) : Field3D :=
  map (fun xi =>
    map (fun yj =>
      map (fun zk => sin (PI * xi) * sin (PI * yj) * sin (PI * zk)) z) y) x.

(** ** Stencil operators *)

Definition laplacian (dx : R) (a : Field3D) : Field3D :=
  sdiv3
    (sub3
       (add3 (add3 (add3 (add3 (add3 (roll_axis 1 0 a) (roll_axis (-1) 0 a))
                                (roll_axis 1 1 a)) (roll_axis (-1) 1 a))
                   (roll_axis 1 2 a)) (roll_axis (-1) 2 a))
       (smul3 6 a))
    (dx ^ 2).

Definition biharmonic (dx : R) (a : Field3D) : Field3D :=
  laplacian dx (laplacian dx a).

(** The six neighbours of (i,j,k), each index wrapped modulo n, in the order
    in which the source adds the rolled copies. *)
Definition stencil_sum (n : nat) (a : Field3D) (i j k : nat) : R :=
  get a (wrap n (Z.of_nat i - 1)) j k + get a (wrap n (Z.of_nat i + 1)) j k
  + get a i (wrap n (Z.of_nat j - 1)) k + get a i (wrap n (Z.of_nat j + 1)) k
  + get a i j (wrap n (Z.of_nat k - 1)) + get a i j (wrap n (Z.of_nat k + 1)).

(** ** Marching recurrence and boundary overwrite *)

(** The array expression bound to [u_next]. *)
Definition next_field (dx dt : R) (cur prev : Field3D) : Field3D :=
  sub3
    (add3 (sub3 (smul3 2 cur) prev) (smul3 (dt ^ 2) (laplacian dx cur)))
    (smul3 (dt ^ 4) (biharmonic dx cur)).

(** [a[i, :, :] = 0], [a[:, j, :] = 0], [a[:, :, k] = 0]. *)
Definition zero_axis0 (i : nat) (a : Field3D) : Field3D :=
  upd i (map (map (fun _ => 0))) a.
Definition zero_axis1 (last : bool) (a : Field3D) : Field3D :=
  map (fun p : Plane =>
         upd (if last then last_idx p else O) (map (fun _ => 0)) p) a.
Definition zero_axis2 (last : bool) (a : Field3D) : Field3D :=
  map (map (fun r : Row =>
              upd (if last then last_idx r else O) (fun _ => 0) r)) a.

(** The three boundary statements; in a chained assignment the targets are
    written left to right. *)
Definition apply_boundary (a : Field3D) : Field3D :=
  let a := zero_axis0 (last_idx a) (zero_axis0 0 a) in
  let a := zero_axis1 true (zero_axis1 false a) in
  zero_axis2 true (zero_axis2 false a).

(** Index 0 exists along each of the three axes. *)
Definition has_faces (a : Field3D) : bool :=
  match a with
  | (_ :: _) :: _ :: _ | [(_ :: _) :: _] => true
  | _ => false
  end.

(** Whether (i,j,k) lies on one of the six faces of an (n,n,n) cube. *)
Definition on_face (n i j k : nat) : bool :=
  (i =? 0)%nat || (i =? n - 1)%nat || (j =? 0)%nat || (j =? n - 1)%nat
  || (k =? 0)%nat || (k =? n - 1)%nat.

(** ** Store, program state and the time-stepping loop *)

Definition loc := nat.
Definition heap := list Field3D.

Definition deref (h : heap) (l : loc) : Field3D := nth l h [].
Definition alloc (h : heap) (a : Field3D) : heap * loc := (h ++ [a], length h).
Definition modify (h : heap) (l : loc) (f : Field3D -> Field3D) : heap :=
  upd l f h.

(** A basic slice [a[:, :, k]] is a view: it names its base array. *)
Inductive view2 : Type :=
  | ZSlice (base : loc) (k : nat).

Definition zslice (k : nat) (a : Field3D) : Plane :=
  map (map (fun r : Row => nth k r 0)) a.

Definition read_view (h : heap) (v : view2) : Plane :=
  match v with
  | ZSlice b k => zslice k (deref h b)
  end.

Record state : Type := mkState {
  mem : heap;
  u : loc;
  u_prev : loc;
  u_next : loc;
  frames : list view2
}.

Inductive exn : Type :=
  | ZeroDivisionError
  | ValueError
  | IndexError.

Inductive result (A : Type) : Type :=
  | Ok (a : A)
  | Raise (e : exn).
Arguments Ok {A} a.
Arguments Raise {A} e.

Definition bind {A B : Type} (r : result A) (k : A -> result B) : result B :=
  match r with
  | Ok a => k a
  | Raise e => Raise e
  end.

(** Body of [for step in range(steps)].  [lap_u] and [biharm_u] are
    temporaries that nothing else names; [u_next] is a fresh array that the
    boundary statements then write in place (index 0 of an empty axis is an
    IndexError); [u_prev] and [u] are rebound to fresh copies; the frame is
    the slice [u[:, :, N // 2]] of the array [u] now names. *)
Definition body (dx dt : R) (N : Z) (st : state) : result state :=
  let cur := deref (mem st) (u st) in
  let prev := deref (mem st) (u_prev st) in
  let '(h1, l_next) := alloc (mem st) (next_field dx dt cur prev) in
  if negb (has_faces (deref h1 l_next)) then Raise IndexError else
      let h2 := modify h1 l_next apply_boundary in
      let '(h3, l_prev) := alloc h2 (copy (deref h2 (u st))) in
      let '(h4, l_u) := alloc h3 (copy (deref h3 l_next)) in
      let mid_idx := (N / 2)%Z in
      Ok {| mem := h4; u := l_u; u_prev := l_prev; u_next := l_next;
            frames := frames st ++ [ZSlice l_u (Z.to_nat mid_idx)] |}.

Fixpoint loop (n : nat) (f : state -> result state) (st : state)
  : result state :=
  match n with
  | O => Ok st
  | S n' => bind (f st) (loop n' f)
  end.

(** ** Module parameters and the whole run *)

Record params : Type := mkParams {
  L : R;
  N : Z;
  T : R;
  dt : R;
  alpha : R
}.

(** [int(x)] on a float: truncation toward zero. *)
Definition py_int (x : R) : Z :=
  if Rle_dec 0 x then Int_part x else (- Int_part (- x))%Z.

(** State after the initialisation statements: [u], then [u_t] and [u_tt]
    (never read again), then the copies [u_prev] and [u_next]. *)
Definition init_state (u0 : Field3D) : state :=
  {| mem := [u0; zeros_like u0; zeros_like u0; copy u0; copy u0];
     u := 0%nat; u_prev := 3%nat; u_next := 4%nat; frames := [] |}.

Definition grid (p : params) : list R := linspace 0 (L p) (Z.to_nat (N p)).

(** The script from its first line to the end of the loop. *)
Definition run (p : params) : result state :=
  if Req_dec_T (dt p) 0 then Raise ZeroDivisionError else
  let steps := py_int (T p / dt p) in
  if (N p - 1 =? 0)%Z then Raise ZeroDivisionError else
  let dx := L p / IZR (N p - 1) in
  if (N p <? 0)%Z then Raise ValueError else
  let x := grid p in
  let u0 := initial_condition x x x in
  loop (Z.to_nat steps) (body dx (dt p) (N p)) (init_state u0).

(** The state names an (n,n,n) current and previous field. *)
Definition well_formed (n : nat) (st : state) : Prop :=
  (u st < length (mem st))%nat
  /\ shape3 n (deref (mem st) (u st))
  /\ shape3 n (deref (mem st) (u_prev st)).

(** [steps = int(T / dt)]. *)
Definition steps_of (p : params) : Z := py_int (T p / dt p).

(** A frame that is an array of its own would read the same whatever is
    written, in place, to any array of the store. *)
Definition independent_of_store (h : heap) (v : view2) : Prop :=
  forall (l : loc) (f : Field3D -> Field3D),
    read_view (modify h l f) v = read_view h v.


(** Every entry on one of the six faces is 0. *)
Definition zero_on_faces (n : nat) (a : Field3D) : Prop :=
  forall i j k, (i < n)%nat -> (j < n)%nat -> (k < n)%nat ->
                on_face n i j k = true -> get a i j k = 0.


(** ** The operators over any scalar arithmetic

    The same expressions as above with the scalar operations taken from a
    record.  [a_pow] is Python's [**] with an integer exponent, [a_is_zero]
    the test [x == 0]. *)
Record arith (F : Type) : Type := mkArith {
  a_zero : F;
  a_one : F;
  a_two : F;
  a_six : F;
  a_add : F -> F -> F;
  a_sub : F -> F -> F;
  a_mul : F -> F -> F;
  a_div : F -> F -> F;
  a_pow : F -> nat -> F;
  a_is_zero : F -> bool
}.
Arguments a_zero {F} _.
Arguments a_one {F} _.
Arguments a_two {F} _.
Arguments a_six {F} _.
Arguments a_add {F} _ _ _.
Arguments a_sub {F} _ _ _.
Arguments a_mul {F} _ _ _.
Arguments a_div {F} _ _ _.
Arguments a_pow {F} _ _ _.
Arguments a_is_zero {F} _ _.

Definition g_get {F : Type} (A : arith F) (a : list (list (list F)))
  (i j k : nat) : F :=
  nth k (nth j (nth i a []) []) (a_zero A).

Definition g_roll_axis {F : Type} (shift : Z) (axis : nat)
  (a : list (list (list F))) : list (list (list F)) :=
  match axis with
  | O => roll shift a
  | S O => map (roll shift) a
  | _ => map (map (roll shift)) a
  end.

Definition g_ewise {F : Type} (f : F -> F -> F)
  (a b : list (list (list F))) : list (list (list F)) :=
  map2 (map2 (map2 f)) a b.

Definition g_emap {F : Type} (f : F -> F) (a : list (list (list F)))
  : list (list (list F)) :=
  map (map (map f)) a.

Definition g_laplacian {F : Type} (A : arith F) (dx : F)
  (a : list (list (list F))) : list (list (list F)) :=
  g_emap (fun x => a_div A x (a_pow A dx 2))
    (g_ewise (a_sub A)
       (g_ewise (a_add A)
          (g_ewise (a_add A)
             (g_ewise (a_add A)
                (g_ewise (a_add A)
                   (g_ewise (a_add A) (g_roll_axis 1 0 a) (g_roll_axis (-1) 0 a))
                   (g_roll_axis 1 1 a))
                (g_roll_axis (-1) 1 a))
             (g_roll_axis 1 2 a))
          (g_roll_axis (-1) 2 a))
       (g_emap (a_mul A (a_six A)) a)).

Definition g_biharmonic {F : Type} (A : arith F) (dx : F)
  (a : list (list (list F))) : list (list (list F)) :=
  g_laplacian A dx (g_laplacian A dx a).

(** [a * f + b * g]. *)
Definition g_lincomb {F : Type} (A : arith F) (a b : F)
  (f g : list (list (list F))) : list (list (list F)) :=
  g_ewise (a_add A) (g_emap (a_mul A a) f) (g_emap (a_mul A b) g).

Definition g_sumf {F E : Type} (A : arith F) (s : E -> F) (l : list E) : F :=
  fold_right (fun x acc => a_add A (s x) acc) (a_zero A) l.

Definition g_total {F : Type} (A : arith F) (a : list (list (list F))) : F :=
  g_sumf A (g_sumf A (g_sumf A (fun x => x))) a.

(** The scalar of a small non-negative integer, as [np.arange] yields it. *)
Fixpoint g_of_nat {F : Type} (A : arith F) (n : nat) : F :=
  match n with
  | O => a_zero A
  | S m => a_add A (g_of_nat A m) (a_one A)
  end.

Definition g_linspace {F : Type} (A : arith F) (start stop : F) (num : nat)
  : list F :=
  let div := (num - 1)%nat in
  let delta := a_sub A stop start in
  let y := map (g_of_nat A) (seq 0 num) in
  let y :=
    match div with
    | O => map (fun v => a_mul A v delta) y
    | S _ =>
        let step := a_div A delta (g_of_nat A div) in
        if a_is_zero A step
        then map (fun v => a_mul A (a_div A v (g_of_nat A div)) delta) y
        else map (fun v => a_mul A v step) y
    end in
  let y := map (fun v => a_add A v start) y in
  if (1 <? num)%nat then upd (last_idx y) (fun _ => stop) y else y.

(** [np.full((n, n, n), c)]. *)
Definition g_full {F : Type} (n : nat) (c : F) : list (list (list F)) :=
  repeat (repeat (repeat c n) n) n.

(** Exact arithmetic. *)
Definition real_arith : arith R :=
  {| a_zero := 0; a_one := 1; a_two := 2; a_six := 6;
     a_add := Rplus; a_sub := Rminus; a_mul := Rmult; a_div := Rdiv;
     a_pow := pow;
     a_is_zero := fun x => if Req_dec_T x 0 then true else false |}.

(** IEEE binary64, round to nearest even: the arithmetic of Python floats
    and of numpy's float64.  The power is by repeated multiplication, which
    agrees with Python's [**] wherever the result is exact, as it is for
    the bases 1 and 1/2 used below. *)
Definition float_pow (x : float) (n : nat) : float :=
  Nat.iter n (PrimFloat.mul x) 1%float.

Definition float_arith : arith float :=
  {| a_zero := 0%float; a_one := 1%float; a_two := 2%float; a_six := 6%float;
     a_add := PrimFloat.add; a_sub := PrimFloat.sub;
     a_mul := PrimFloat.mul; a_div := PrimFloat.div;
     a_pow := float_pow;
     a_is_zero := fun x => PrimFloat.eqb x 0%float |}.

(** The double nearest to 0.1: what Python reads the literal [0.1] as. *)
Definition tenth : float := 0x1.999999999999ap-4%float.

(** ** Sample data

    A (3,3,3) field with one interior point, and the state the script would
    be in after its initialisation statements had [u] been that field. *)
Definition sample_field : Field3D :=
  [ [ [1; 2; 3]; [4; 5; 6]; [7; 8; 9] ];
    [ [10; 11; 12]; [13; 14; 15]; [16; 17; 18] ];
    [ [19; 20; 21]; [22; 23; 24]; [25; 26; 27] ] ].

Definition sample_state : state := init_state sample_field.

(** One step on a grid of three points per axis. *)
Definition sample_params : params :=
  {| L := 1; N := 3; T := 1; dt := 1; alpha := 1 |}.

(** Nothing to simulate: final time 0. *)
Definition zero_steps_params : params :=
  {| L := 1; N := 5; T := 0; dt := 1 / 10000; alpha := 1 |}.


(** * Properties *)

(** ** Lists *)

Lemma length_map2 {A B C : Type} (f : A -> B -> C) (l1 : list A) (l2 : list B) :
  length l1 = length l2 -> length (map2 f l1 l2) = length l1.
Proof.
  revert l2; induction l1 as [|x xs IH]; intros [|y ys] H; simpl in *;
    try discriminate; auto.
Qed.

Lemma nth_map2 {A B C : Type} (f : A -> B -> C) (l1 : list A) (l2 : list B)
      (i : nat) (d1 : A) (d2 : B) (d : C) :
  length l1 = length l2 -> (i < length l1)%nat ->
  nth i (map2 f l1 l2) d = f (nth i l1 d1) (nth i l2 d2).
Proof.
  revert l2 i; induction l1 as [|x xs IH]; intros [|y ys] i Hl Hi;
    simpl in *; try discriminate; try lia.
  destruct i as [|i]; [reflexivity|]. apply IH; lia.
Qed.

Lemma nth_map_in {A B : Type} (f : A -> B) (l : list A) (i : nat) (d : A) (e : B) :
  (i < length l)%nat -> nth i (map f l) e = f (nth i l d).
Proof.
  intros Hi. rewrite (nth_indep _ e (f d)) by (rewrite length_map; exact Hi).
  apply map_nth.
Qed.

Lemma length_upd {A : Type} (i : nat) (f : A -> A) (l : list A) :
  length (upd i f l) = length l.
Proof.
  revert i; induction l as [|x xs IH]; intros [|i]; simpl; auto.
Qed.

Lemma nth_upd {A : Type} (i j : nat) (f : A -> A) (l : list A) (d : A) :
  (j < length l)%nat ->
  nth j (upd i f l) d = if (j =? i)%nat then f (nth j l d) else nth j l d.
Proof.
  revert i j; induction l as [|x xs IH]; intros i j Hj; simpl in *; [lia|].
  destruct i as [|i], j as [|j]; simpl; auto.
  apply IH; lia.
Qed.

Lemma list_ext {A : Type} (l1 l2 : list A) (d : A) :
  length l1 = length l2 ->
  (forall i, (i < length l1)%nat -> nth i l1 d = nth i l2 d) ->
  l1 = l2.
Proof.
  revert l2; induction l1 as [|x xs IH]; intros [|y ys] Hl H; simpl in *;
    try discriminate; auto.
  f_equal.
  - apply (H 0%nat); lia.
  - apply IH; [lia|]. intros i Hi. apply (H (S i)); lia.
Qed.

(** ** Rolling *)

Lemma length_roll {A : Type} (s : Z) (a : list A) : length (roll s a) = length a.
Proof.
  destruct a as [|x xs]; [reflexivity|]. unfold roll.
  set (l := x :: xs). set (k := Z.to_nat _).
  rewrite length_app, length_skipn, length_firstn. lia.
Qed.

Lemma wrap_lt (n : nat) (z : Z) : (0 < n)%nat -> (wrap n z < n)%nat.
Proof.
  intros Hn. unfold wrap.
  pose proof (Z.mod_pos_bound z (Z.of_nat n) ltac:(lia)). lia.
Qed.

Lemma nth_roll {A : Type} (s : Z) (a : list A) (i : nat) (d : A) :
  (i < length a)%nat ->
  nth i (roll s a) d = nth (wrap (length a) (Z.of_nat i - s)) a d.
Proof.
  intros Hi. destruct a as [|x xs]; [simpl in Hi; lia|].
  unfold roll. set (l := x :: xs) in *. set (n := length l) in *.
  assert (Hn : (0 < Z.of_nat n)%Z) by lia.
  pose proof (Z.mod_pos_bound (- s) (Z.of_nat n) Hn) as Hk.
  set (k := ((- s) mod Z.of_nat n)%Z) in *.
  assert (Hw : ((Z.of_nat i - s) mod Z.of_nat n
                = (Z.of_nat i + k) mod Z.of_nat n)%Z).
  { unfold k. rewrite Zplus_mod_idemp_r. f_equal; lia. }
  unfold wrap. rewrite Hw.
  destruct (Nat.lt_ge_cases i (n - Z.to_nat k)) as [Hlt|Hge].
  - rewrite app_nth1 by (rewrite length_skipn; fold n; lia).
    rewrite nth_skipn. f_equal.
    rewrite Z.mod_small by lia. lia.
  - rewrite app_nth2 by (rewrite length_skipn; fold n; lia).
    rewrite length_skipn. fold n.
    rewrite nth_firstn.
    replace (i - (n - Z.to_nat k) <? Z.to_nat k)%nat with true
      by (symmetry; apply Nat.ltb_lt; lia).
    f_equal.
    replace ((Z.of_nat i + k) mod Z.of_nat n)%Z
      with (Z.of_nat i + k - Z.of_nat n)%Z; [lia|].
    apply Z.mod_unique with (q := 1%Z); lia.
Qed.

Lemma wrap_minus_one (n : nat) : (0 < n)%nat -> wrap n (-1) = (n - 1)%nat.
Proof.
  intros Hn. unfold wrap.
  replace ((-1) mod Z.of_nat n)%Z with (Z.of_nat n - 1)%Z; [lia|].
  apply Z.mod_unique with (q := (-1)%Z); lia.
Qed.

Lemma wrap_n (n : nat) : wrap n (Z.of_nat n) = 0%nat.
Proof.
  unfold wrap. destruct n as [|n]; [reflexivity|].
  rewrite Z.mod_same by lia. reflexivity.
Qed.

(** ** Shapes and indexing *)

Lemma shape2_nth (n : nat) (p : Plane) :
  shape2 n p <->
  length p = n /\ forall j, (j < n)%nat -> length (nth j p []) = n.
Proof.
  unfold shape2. split; intros [Hl H]; split; auto.
  - intros j Hj. rewrite Forall_forall in H. apply H, nth_In. lia.
  - apply Forall_forall. intros r Hr.
    destruct (In_nth _ _ [] Hr) as [j [Hj <-]]. apply H. lia.
Qed.

Lemma shape3_nth (n : nat) (a : Field3D) :
  shape3 n a <->
  length a = n /\ forall i, (i < n)%nat -> shape2 n (nth i a []).
Proof.
  unfold shape3. split; intros [Hl H]; split; auto.
  - intros i Hi. rewrite Forall_forall in H. apply H, nth_In. lia.
  - apply Forall_forall. intros p Hp.
    destruct (In_nth _ _ [] Hp) as [i [Hi <-]]. apply H. lia.
Qed.

Lemma shape3_length (n : nat) (a : Field3D) : shape3 n a -> length a = n.
Proof. intros [H _]; exact H. Qed.

Lemma shape3_plane (n : nat) (a : Field3D) (i : nat) :
  shape3 n a -> (i < n)%nat -> length (nth i a []) = n.
Proof. intros H Hi. apply shape3_nth in H. apply (proj2 H i Hi). Qed.

Lemma shape3_row (n : nat) (a : Field3D) (i j : nat) :
  shape3 n a -> (i < n)%nat -> (j < n)%nat ->
  length (nth j (nth i a []) []) = n.
Proof.
  intros H Hi Hj. apply shape3_nth in H. destruct H as [_ H].
  specialize (H i Hi). apply shape2_nth in H. apply (proj2 H j Hj).
Qed.

(** Two arrays of one shape with the same entries are the same array. *)
Lemma field_ext (n : nat) (a b : Field3D) :
  shape3 n a -> shape3 n b ->
  (forall i j k, (i < n)%nat -> (j < n)%nat -> (k < n)%nat ->
                 get a i j k = get b i j k) ->
  a = b.
Proof.
  intros Ha Hb H.
  apply (list_ext _ _ []).
  - rewrite (shape3_length _ _ Ha), (shape3_length _ _ Hb). reflexivity.
  - rewrite (shape3_length _ _ Ha). intros i Hi.
    apply (list_ext _ _ []).
    + rewrite !(shape3_plane n) by assumption. reflexivity.
    + rewrite (shape3_plane n) by assumption. intros j Hj.
      apply (list_ext _ _ 0).
      * rewrite !(shape3_row n) by assumption. reflexivity.
      * rewrite (shape3_row n) by assumption. intros k Hk.
        apply (H i j k); assumption.
Qed.

Lemma shape3_emap (n : nat) (f : R -> R) (a : Field3D) :
  shape3 n a -> shape3 n (emap f a).
Proof.
  intros Ha. unfold emap. apply shape3_nth. split.
  - rewrite length_map. apply (shape3_length _ _ Ha).
  - intros i Hi. apply shape2_nth.
    rewrite (nth_map_in _ _ _ []) by (rewrite (shape3_length _ _ Ha); lia).
    split.
    + rewrite length_map. apply (shape3_plane n); assumption.
    + intros j Hj.
      rewrite (nth_map_in _ _ _ []) by (rewrite (shape3_plane n); assumption).
      rewrite length_map. apply (shape3_row n); assumption.
Qed.

Lemma get_emap (n : nat) (f : R -> R) (a : Field3D) (i j k : nat) :
  shape3 n a -> (i < n)%nat -> (j < n)%nat -> (k < n)%nat ->
  get (emap f a) i j k = f (get a i j k).
Proof.
  intros Ha Hi Hj Hk. unfold get, emap.
  rewrite (nth_map_in _ _ _ []) by (rewrite (shape3_length _ _ Ha); lia).
  rewrite (nth_map_in _ _ _ []) by (rewrite (shape3_plane n); assumption).
  rewrite (nth_map_in _ _ _ 0) by (rewrite (shape3_row n); assumption).
  reflexivity.
Qed.

Lemma shape3_ewise (n : nat) (f : R -> R -> R) (a b : Field3D) :
  shape3 n a -> shape3 n b -> shape3 n (ewise f a b).
Proof.
  intros Ha Hb. unfold ewise.
  assert (Hab : length a = length b)
    by (rewrite (shape3_length _ _ Ha), (shape3_length _ _ Hb); reflexivity).
  apply shape3_nth. split.
  - rewrite length_map2 by exact Hab. apply (shape3_length _ _ Ha).
  - intros i Hi.
    assert (Hp : length (nth i a []) = length (nth i b []))
      by (rewrite !(shape3_plane n) by assumption; reflexivity).
    rewrite (nth_map2 _ _ _ _ [] [])
      by (try exact Hab; rewrite (shape3_length _ _ Ha); lia).
    apply shape2_nth. split.
    + rewrite length_map2 by exact Hp. apply (shape3_plane n); assumption.
    + intros j Hj.
      rewrite (nth_map2 _ _ _ _ [] [])
        by (try exact Hp; rewrite (shape3_plane n); assumption).
      rewrite length_map2
        by (rewrite !(shape3_row n) by assumption; reflexivity).
      apply (shape3_row n); assumption.
Qed.

Lemma get_ewise (n : nat) (f : R -> R -> R) (a b : Field3D) (i j k : nat) :
  shape3 n a -> shape3 n b -> (i < n)%nat -> (j < n)%nat -> (k < n)%nat ->
  get (ewise f a b) i j k = f (get a i j k) (get b i j k).
Proof.
  intros Ha Hb Hi Hj Hk. unfold get, ewise.
  rewrite (nth_map2 _ _ _ _ [] []).
  2: rewrite (shape3_length _ _ Ha), (shape3_length _ _ Hb); reflexivity.
  2: rewrite (shape3_length _ _ Ha); lia.
  rewrite (nth_map2 _ _ _ _ [] []).
  2: rewrite !(shape3_plane n) by assumption; reflexivity.
  2: rewrite (shape3_plane n); assumption.
  rewrite (nth_map2 _ _ _ _ 0 0).
  2: rewrite !(shape3_row n) by assumption; reflexivity.
  2: rewrite (shape3_row n); assumption.
  reflexivity.
Qed.

Lemma shape3_roll_axis (n : nat) (s : Z) (ax : nat) (a : Field3D) :
  shape3 n a -> shape3 n (roll_axis s ax a).
Proof.
  intros Ha. apply shape3_nth.
  destruct ax as [|[|ax]]; simpl.
  - split; [rewrite length_roll; apply (shape3_length _ _ Ha)|].
    intros i Hi. rewrite nth_roll by (rewrite (shape3_length _ _ Ha); lia).
    rewrite (shape3_length _ _ Ha).
    apply shape3_nth in Ha. apply (proj2 Ha). apply wrap_lt. lia.
  - split; [rewrite length_map; apply (shape3_length _ _ Ha)|].
    intros i Hi.
    rewrite (nth_map_in _ _ _ []) by (rewrite (shape3_length _ _ Ha); lia).
    apply shape2_nth. split.
    + rewrite length_roll. apply (shape3_plane n); assumption.
    + intros j Hj. rewrite nth_roll by (rewrite (shape3_plane n); assumption).
      rewrite (shape3_plane n) by assumption.
      apply (shape3_row n); try assumption. apply wrap_lt. lia.
  - split; [rewrite length_map; apply (shape3_length _ _ Ha)|].
    intros i Hi.
    rewrite (nth_map_in _ _ _ []) by (rewrite (shape3_length _ _ Ha); lia).
    apply shape2_nth. split.
    + rewrite length_map. apply (shape3_plane n); assumption.
    + intros j Hj.
      rewrite (nth_map_in _ _ _ []) by (rewrite (shape3_plane n); assumption).
      rewrite length_roll. apply (shape3_row n); assumption.
Qed.

Lemma get_roll_axis0 (n : nat) (s : Z) (a : Field3D) (i j k : nat) :
  shape3 n a -> (i < n)%nat ->
  get (roll_axis s 0 a) i j k = get a (wrap n (Z.of_nat i - s)) j k.
Proof.
  intros Ha Hi. unfold get. simpl.
  rewrite nth_roll by (rewrite (shape3_length _ _ Ha); lia).
  rewrite (shape3_length _ _ Ha). reflexivity.
Qed.

Lemma get_roll_axis1 (n : nat) (s : Z) (a : Field3D) (i j k : nat) :
  shape3 n a -> (i < n)%nat -> (j < n)%nat ->
  get (roll_axis s 1 a) i j k = get a i (wrap n (Z.of_nat j - s)) k.
Proof.
  intros Ha Hi Hj. unfold get. simpl.
  rewrite (nth_map_in _ _ _ []) by (rewrite (shape3_length _ _ Ha); lia).
  rewrite nth_roll by (rewrite (shape3_plane n); assumption).
  rewrite (shape3_plane n) by assumption. reflexivity.
Qed.

Lemma get_roll_axis2 (n : nat) (s : Z) (a : Field3D) (i j k : nat) :
  shape3 n a -> (i < n)%nat -> (j < n)%nat -> (k < n)%nat ->
  get (roll_axis s 2 a) i j k = get a i j (wrap n (Z.of_nat k - s)).
Proof.
  intros Ha Hi Hj Hk. unfold get. simpl.
  rewrite (nth_map_in _ _ _ []) by (rewrite (shape3_length _ _ Ha); lia).
  rewrite (nth_map_in _ _ _ []) by (rewrite (shape3_plane n); assumption).
  rewrite nth_roll by (rewrite (shape3_row n); assumption).
  rewrite (shape3_row n) by assumption. reflexivity.
Qed.

(** ** The Laplacian stencil *)

Lemma shape3_laplacian (n : nat) (dx : R) (a : Field3D) :
  shape3 n a -> shape3 n (laplacian dx a).
Proof.
  intros Ha. unfold laplacian, sdiv3, sub3, add3, smul3.
  repeat first [ apply shape3_emap | apply shape3_ewise
               | apply shape3_roll_axis | exact Ha ].
Qed.

Lemma shape3_biharmonic (n : nat) (dx : R) (a : Field3D) :
  shape3 n a -> shape3 n (biharmonic dx a).
Proof. intros Ha. unfold biharmonic. do 2 apply shape3_laplacian. exact Ha. Qed.

Lemma get_laplacian (n : nat) (dx : R) (a : Field3D) (i j k : nat) :
  shape3 n a -> (i < n)%nat -> (j < n)%nat -> (k < n)%nat ->
  get (laplacian dx a) i j k
  = (stencil_sum n a i j k - 6 * get a i j k) / dx ^ 2.
Proof.
  intros Ha Hi Hj Hk. unfold laplacian, sdiv3, sub3, add3, smul3.
  rewrite (get_emap n); try assumption.
  2: repeat first [ apply shape3_emap | apply shape3_ewise
                  | apply shape3_roll_axis | exact Ha ].
  repeat (rewrite (get_ewise n); try assumption;
          try (repeat first [ apply shape3_emap | apply shape3_ewise
                            | apply shape3_roll_axis | exact Ha ])).
  rewrite (get_emap n) by assumption.
  rewrite !(get_roll_axis0 n), !(get_roll_axis1 n), !(get_roll_axis2 n)
    by assumption.
  unfold stencil_sum.
  replace (Z.of_nat i - -1)%Z with (Z.of_nat i + 1)%Z by lia.
  replace (Z.of_nat j - -1)%Z with (Z.of_nat j + 1)%Z by lia.
  replace (Z.of_nat k - -1)%Z with (Z.of_nat k + 1)%Z by lia.
  reflexivity.
Qed.

(** C2.  For an (n,n,n) field and every grid point (i,j,k), boundary points
    included, the Laplacian at (i,j,k) is the sum of the six axis neighbours,
    each neighbour index taken modulo n (so -1 is n-1 and n is 0), minus six
    times the centre value, divided by dx squared. *)
Theorem laplacian_periodic_stencil (n : nat) (dx : R) (a : Field3D) (i j k : nat) :
  shape3 n a -> (i < n)%nat -> (j < n)%nat -> (k < n)%nat ->
  get (laplacian dx a) i j k
  = (get a (wrap n (Z.of_nat i - 1)) j k + get a (wrap n (Z.of_nat i + 1)) j k
     + get a i (wrap n (Z.of_nat j - 1)) k + get a i (wrap n (Z.of_nat j + 1)) k
     + get a i j (wrap n (Z.of_nat k - 1)) + get a i j (wrap n (Z.of_nat k + 1))
     - 6 * get a i j k) / dx ^ 2
  /\ wrap n (-1) = (n - 1)%nat /\ wrap n (Z.of_nat n) = 0%nat.
Proof.
  intros Ha Hi Hj Hk. split; [|split].
  - rewrite (get_laplacian n) by assumption. reflexivity.
  - apply wrap_minus_one. lia.
  - apply wrap_n.
Qed.

(** ** Boundary overwrite *)

Lemma shape3_zero_axis0 (n i0 : nat) (a : Field3D) :
  shape3 n a -> shape3 n (zero_axis0 i0 a).
Proof.
  intros Ha. unfold zero_axis0. apply shape3_nth. split.
  - rewrite length_upd. apply (shape3_length _ _ Ha).
  - intros i Hi. rewrite nth_upd by (rewrite (shape3_length _ _ Ha); lia).
    apply shape2_nth. destruct (i =? i0)%nat.
    + split; [rewrite length_map; apply (shape3_plane n); assumption|].
      intros j Hj.
      rewrite (nth_map_in _ _ _ []) by (rewrite (shape3_plane n); assumption).
      rewrite length_map. apply (shape3_row n); assumption.
    + split; [apply (shape3_plane n); assumption|].
      intros j Hj. apply (shape3_row n); assumption.
Qed.

Lemma get_zero_axis0 (n i0 : nat) (a : Field3D) (i j k : nat) :
  shape3 n a -> (i < n)%nat -> (j < n)%nat -> (k < n)%nat ->
  get (zero_axis0 i0 a) i j k = if (i =? i0)%nat then 0 else get a i j k.
Proof.
  intros Ha Hi Hj Hk. unfold get, zero_axis0.
  rewrite nth_upd by (rewrite (shape3_length _ _ Ha); lia).
  destruct (i =? i0)%nat; [|reflexivity].
  rewrite (nth_map_in _ _ _ []) by (rewrite (shape3_plane n); assumption).
  rewrite (nth_map_in _ _ _ 0) by (rewrite (shape3_row n); assumption).
  reflexivity.
Qed.

Lemma shape3_zero_axis1 (n : nat) (last : bool) (a : Field3D) :
  shape3 n a -> shape3 n (zero_axis1 last a).
Proof.
  intros Ha. unfold zero_axis1. apply shape3_nth. split.
  - rewrite length_map. apply (shape3_length _ _ Ha).
  - intros i Hi.
    rewrite (nth_map_in _ _ _ []) by (rewrite (shape3_length _ _ Ha); lia).
    apply shape2_nth. split.
    + rewrite length_upd. apply (shape3_plane n); assumption.
    + intros j Hj. rewrite nth_upd by (rewrite (shape3_plane n); assumption).
      destruct (j =? _)%nat.
      * rewrite length_map. apply (shape3_row n); assumption.
      * apply (shape3_row n); assumption.
Qed.

Lemma get_zero_axis1 (n : nat) (last : bool) (a : Field3D) (i j k : nat) :
  shape3 n a -> (i < n)%nat -> (j < n)%nat -> (k < n)%nat ->
  get (zero_axis1 last a) i j k
  = if (j =? (if last then n - 1 else 0))%nat then 0 else get a i j k.
Proof.
  intros Ha Hi Hj Hk. unfold get, zero_axis1.
  rewrite (nth_map_in _ _ _ []) by (rewrite (shape3_length _ _ Ha); lia).
  rewrite nth_upd by (rewrite (shape3_plane n); assumption).
  unfold last_idx. rewrite (shape3_plane n) by assumption.
  destruct (j =? _)%nat; [|reflexivity].
  rewrite (nth_map_in _ _ _ 0) by (rewrite (shape3_row n); assumption).
  reflexivity.
Qed.

Lemma shape3_zero_axis2 (n : nat) (last : bool) (a : Field3D) :
  shape3 n a -> shape3 n (zero_axis2 last a).
Proof.
  intros Ha. unfold zero_axis2. apply shape3_nth. split.
  - rewrite length_map. apply (shape3_length _ _ Ha).
  - intros i Hi.
    rewrite (nth_map_in _ _ _ []) by (rewrite (shape3_length _ _ Ha); lia).
    apply shape2_nth. split.
    + rewrite length_map. apply (shape3_plane n); assumption.
    + intros j Hj.
      rewrite (nth_map_in _ _ _ []) by (rewrite (shape3_plane n); assumption).
      rewrite length_upd. apply (shape3_row n); assumption.
Qed.

Lemma get_zero_axis2 (n : nat) (last : bool) (a : Field3D) (i j k : nat) :
  shape3 n a -> (i < n)%nat -> (j < n)%nat -> (k < n)%nat ->
  get (zero_axis2 last a) i j k
  = if (k =? (if last then n - 1 else 0))%nat then 0 else get a i j k.
Proof.
  intros Ha Hi Hj Hk. unfold get, zero_axis2.
  rewrite (nth_map_in _ _ _ []) by (rewrite (shape3_length _ _ Ha); lia).
  rewrite (nth_map_in _ _ _ []) by (rewrite (shape3_plane n); assumption).
  rewrite nth_upd by (rewrite (shape3_row n); assumption).
  unfold last_idx. rewrite (shape3_row n) by assumption.
  reflexivity.
Qed.

Lemma shape3_apply_boundary (n : nat) (a : Field3D) :
  shape3 n a -> shape3 n (apply_boundary a).
Proof.
  intros Ha. unfold apply_boundary.
  repeat first [ apply shape3_zero_axis2 | apply shape3_zero_axis1
               | apply shape3_zero_axis0 | exact Ha ].
Qed.

Lemma get_apply_boundary (n : nat) (a : Field3D) (i j k : nat) :
  shape3 n a -> (i < n)%nat -> (j < n)%nat -> (k < n)%nat ->
  get (apply_boundary a) i j k = if on_face n i j k then 0 else get a i j k.
Proof.
  intros Ha Hi Hj Hk. unfold apply_boundary, on_face.
  rewrite (get_zero_axis2 n), (get_zero_axis2 n); try assumption.
  2,3: repeat first [ apply shape3_zero_axis2 | apply shape3_zero_axis1
                    | apply shape3_zero_axis0 | exact Ha ].
  rewrite (get_zero_axis1 n), (get_zero_axis1 n); try assumption.
  2,3: repeat first [ apply shape3_zero_axis1
                    | apply shape3_zero_axis0 | exact Ha ].
  rewrite (get_zero_axis0 n), (get_zero_axis0 n); try assumption.
  2: apply shape3_zero_axis0; exact Ha.
  unfold last_idx. rewrite (shape3_length _ _ Ha).
  destruct (i =? 0)%nat, (i =? n - 1)%nat, (j =? 0)%nat, (j =? n - 1)%nat,
    (k =? 0)%nat, (k =? n - 1)%nat; reflexivity.
Qed.

Lemma copy_id (a : Field3D) : copy a = a.
Proof.
  unfold copy, emap.
  rewrite (map_ext _ (fun p : list (list R) => p)); [apply map_id|].
  intros p. rewrite (map_ext _ (fun r : list R => r)); [apply map_id|].
  intros r. apply map_id.
Qed.

(** ** One iteration on the store *)

Lemma shape3_has_faces (n : nat) (a : Field3D) :
  (0 < n)%nat -> shape3 n a -> has_faces a = true.
Proof.
  intros Hn Ha.
  pose proof (shape3_length _ _ Ha) as H0.
  pose proof (shape3_plane n a 0 Ha Hn) as H1.
  pose proof (shape3_row n a 0 0 Ha Hn Hn) as H2.
  destruct a as [|[|[|x r] p] [|q a]]; simpl in *; try lia; reflexivity.
Qed.

Lemma upd_app_last {A : Type} (f : A -> A) (h : list A) (x : A) :
  upd (length h) f (h ++ [x]) = h ++ [f x].
Proof. induction h as [|y h IH]; simpl; [reflexivity|]. rewrite IH. reflexivity. Qed.

Lemma shape3_next_field (n : nat) (dx dt : R) (a b : Field3D) :
  shape3 n a -> shape3 n b -> shape3 n (next_field dx dt a b).
Proof.
  intros Ha Hb. unfold next_field, sub3, add3, smul3.
  apply shape3_ewise; [apply shape3_ewise; [apply shape3_ewise|]|].
  - apply shape3_emap. exact Ha.
  - exact Hb.
  - apply shape3_emap, shape3_laplacian. exact Ha.
  - apply shape3_emap, shape3_biharmonic. exact Ha.
Qed.

(** The state after one iteration, written out: three arrays are appended to
    the store and nothing that existed before is written. *)
Lemma body_eq (n : nat) (dx dt : R) (N : Z) (st : state) :
  (0 < n)%nat -> (u st < length (mem st))%nat ->
  shape3 n (deref (mem st) (u st)) ->
  shape3 n (deref (mem st) (u_prev st)) ->
  let a := deref (mem st) (u st) in
  let b := deref (mem st) (u_prev st) in
  let nxt := apply_boundary (next_field dx dt a b) in
  let len := length (mem st) in
  body dx dt N st
  = Ok {| mem := mem st ++ [nxt; copy a; copy nxt];
          u := (len + 2)%nat; u_prev := (len + 1)%nat; u_next := len;
          frames := frames st ++ [ZSlice (len + 2)%nat (Z.to_nat (N / 2))] |}.
Proof.
  intros Hn Hu Ha Hb. cbv zeta. unfold body, alloc, modify.
  set (a := deref (mem st) (u st)) in *.
  set (b := deref (mem st) (u_prev st)) in *.
  assert (Hd : deref (mem st ++ [next_field dx dt a b]) (length (mem st))
               = next_field dx dt a b)
    by (unfold deref; apply nth_middle).
  rewrite Hd.
  rewrite (shape3_has_faces n) by (try apply shape3_next_field; assumption).
  simpl negb. cbv iota.
  rewrite upd_app_last.
  set (nxt := apply_boundary (next_field dx dt a b)).
  assert (Hda : deref (mem st ++ [nxt]) (u st) = a)
    by (unfold deref; rewrite app_nth1 by exact Hu; reflexivity).
  rewrite Hda.
  assert (Hdn : deref ((mem st ++ [nxt]) ++ [copy a]) (length (mem st)) = nxt).
  { unfold deref. rewrite <- app_assoc. simpl. apply nth_middle. }
  rewrite Hdn.
  rewrite !length_app. simpl length.
  rewrite <- !app_assoc. simpl app.
  replace (length (mem st) + 1 + 1)%nat with (length (mem st) + 2)%nat by lia.
  reflexivity.
Qed.

Lemma deref_app_old (h ext : heap) (l : loc) :
  (l < length h)%nat -> deref (h ++ ext) l = deref h l.
Proof. intros Hl. unfold deref. apply app_nth1. exact Hl. Qed.

Lemma deref_app_new (h ext : heap) (i : nat) :
  deref (h ++ ext) (length h + i)%nat = nth i ext [].
Proof. unfold deref. apply app_nth2_plus. Qed.

Lemma get_next_field (n : nat) (dx dt : R) (a b : Field3D) (i j k : nat) :
  shape3 n a -> shape3 n b -> (i < n)%nat -> (j < n)%nat -> (k < n)%nat ->
  get (next_field dx dt a b) i j k
  = 2 * get a i j k - get b i j k
    + dt ^ 2 * get (laplacian dx a) i j k
    - dt ^ 4 * get (biharmonic dx a) i j k.
Proof.
  intros Ha Hb Hi Hj Hk. unfold next_field, sub3, add3, smul3.
  pose proof (shape3_laplacian n dx a Ha) as Hl.
  pose proof (shape3_biharmonic n dx a Ha) as Hbi.
  rewrite (get_ewise n); try assumption.
  2: repeat first [ assumption | apply shape3_emap | apply shape3_ewise ].
  2: apply shape3_emap; assumption.
  rewrite (get_ewise n); try assumption.
  2: repeat first [ assumption | apply shape3_emap | apply shape3_ewise ].
  2: apply shape3_emap; assumption.
  rewrite (get_ewise n); try assumption.
  2: apply shape3_emap; assumption.
  rewrite !(get_emap n) by assumption.
  reflexivity.
Qed.

(** What one iteration leaves in the variables, for a state whose [u] and
    [u_prev] name (n,n,n) arrays. *)
Lemma body_vars (n : nat) (dx dt : R) (N : Z) (st : state) :
  (0 < n)%nat -> (u st < length (mem st))%nat ->
  shape3 n (deref (mem st) (u st)) ->
  shape3 n (deref (mem st) (u_prev st)) ->
  exists st',
    body dx dt N st = Ok st'
    /\ deref (mem st') (u st')
       = apply_boundary (next_field dx dt (deref (mem st) (u st))
                                          (deref (mem st) (u_prev st)))
    /\ deref (mem st') (u_prev st') = deref (mem st) (u st)
    /\ (u st' < length (mem st'))%nat
    /\ (u_prev st' < length (mem st'))%nat
    /\ (exists ext, mem st' = mem st ++ ext)
    /\ frames st' = frames st ++ [ZSlice (u st') (Z.to_nat (N / 2))].
Proof.
  intros Hn Hu Ha Hb. eexists. split; [apply (body_eq n); assumption|].
  cbn [mem u u_prev frames].
  repeat split.
  - rewrite deref_app_new. simpl. apply copy_id.
  - rewrite deref_app_new. simpl. apply copy_id.
  - rewrite length_app. simpl. lia.
  - rewrite length_app. simpl. lia.
  - eexists. reflexivity.
Qed.

(** C1.  From a state whose current and previous fields have shape (n,n,n),
    one iteration of the time-stepping loop computes the candidate
    next = 2 current - previous + dt^2 laplacian(current)
           - dt^4 biharmonic(current) entry by entry, zeroes its six faces,
    and leaves previous equal to the old current and current equal to the
    boundary-enforced candidate.  It holds for every dt, so for every
    dt > 0. *)
Theorem step_marching_recurrence (n : nat) (dx dt : R) (N : Z) (st : state) :
  (0 < n)%nat -> (u st < length (mem st))%nat ->
  shape3 n (deref (mem st) (u st)) ->
  shape3 n (deref (mem st) (u_prev st)) ->
  let cur := deref (mem st) (u st) in
  let prev := deref (mem st) (u_prev st) in
  let next := next_field dx dt cur prev in
  exists st',
    body dx dt N st = Ok st'
    /\ (forall i j k, (i < n)%nat -> (j < n)%nat -> (k < n)%nat ->
          get next i j k
          = 2 * get cur i j k - get prev i j k
            + dt ^ 2 * get (laplacian dx cur) i j k
            - dt ^ 4 * get (biharmonic dx cur) i j k)
    /\ (forall i j k, (i < n)%nat -> (j < n)%nat -> (k < n)%nat ->
          get (deref (mem st') (u st')) i j k
          = if on_face n i j k then 0 else get next i j k)
    /\ deref (mem st') (u st') = apply_boundary next
    /\ deref (mem st') (u_prev st') = cur
    /\ u_prev st' <> u st'.
Proof.
  intros Hn Hu Ha Hb cur prev next.
  exists {| mem := mem st ++ [apply_boundary next; copy cur;
                              copy (apply_boundary next)];
            u := (length (mem st) + 2)%nat;
            u_prev := (length (mem st) + 1)%nat;
            u_next := length (mem st);
            frames := frames st
                      ++ [ZSlice (length (mem st) + 2)%nat (Z.to_nat (N / 2))] |}.
  split; [apply (body_eq n); assumption|].
  cbn [mem u u_prev].
  assert (Hcur : deref (mem st ++ [apply_boundary next; copy cur;
                                   copy (apply_boundary next)])
                       (length (mem st) + 2)%nat = apply_boundary next)
    by (rewrite deref_app_new; simpl; apply copy_id).
  split; [|split; [|split; [|split]]].
  - intros i j k Hi Hj Hk. apply (get_next_field n); assumption.
  - intros i j k Hi Hj Hk. rewrite Hcur.
    apply (get_apply_boundary n); try assumption.
    apply shape3_next_field; assumption.
  - exact Hcur.
  - rewrite deref_app_new. simpl. apply copy_id.
  - lia.
Qed.

Lemma shape3_initial_condition (n : nat) (x : list R) :
  length x = n -> shape3 n (initial_condition x x x).
Proof.
  intros Hx. unfold initial_condition. apply shape3_nth. split.
  - rewrite length_map. exact Hx.
  - intros i Hi. apply shape2_nth.
    rewrite (nth_map_in _ _ _ 0) by lia. split.
    + rewrite length_map. exact Hx.
    + intros j Hj. rewrite (nth_map_in _ _ _ 0) by lia.
      rewrite length_map. exact Hx.
Qed.

Ltac shape_by_computation :=
  unfold shape3, shape2; simpl; repeat constructor.

Lemma shape3_sample_field : shape3 3 sample_field.
Proof. shape_by_computation. Qed.

Lemma shape3_sample_state_u : shape3 3 (deref (mem sample_state) (u sample_state)).
Proof. shape_by_computation. Qed.

Lemma shape3_sample_state_u_prev :
  shape3 3 (deref (mem sample_state) (u_prev sample_state)).
Proof. shape_by_computation. Qed.

Lemma step_marching_recurrence_witness :
  exists st', body (1 / 2) (1 / 10) 3 sample_state = Ok st'
              /\ deref (mem st') (u_prev st') = sample_field.
Proof.
  destruct (step_marching_recurrence 3 (1 / 2) (1 / 10) 3 sample_state)
    as [st' [Hb [_ [_ [_ [Hp _]]]]]].
  - lia.
  - simpl. lia.
  - exact shape3_sample_state_u.
  - exact shape3_sample_state_u_prev.
  - exists st'. split; [exact Hb | exact Hp].
Defined.

Lemma laplacian_periodic_stencil_witness :
  get (laplacian (1 / 2) sample_field) 0 1 2
  = (get sample_field 2 1 2 + get sample_field 1 1 2
     + get sample_field 0 0 2 + get sample_field 0 2 2
     + get sample_field 0 1 1 + get sample_field 0 1 0
     - 6 * get sample_field 0 1 2) / (1 / 2) ^ 2.
Proof.
  apply (laplacian_periodic_stencil 3 (1 / 2) sample_field 0 1 2).
  - exact shape3_sample_field.
  - lia.
  - lia.
  - lia.
Defined.



(** C4.  The biharmonic operator is the Laplacian applied twice: it keeps
    the shape of its argument, and entry by entry it is the periodic stencil
    of the field of periodic stencils. *)
Theorem biharmonic_is_laplacian_twice (n : nat) (dx : R) (a : Field3D) :
  shape3 n a ->
  biharmonic dx a = laplacian dx (laplacian dx a)
  /\ shape3 n (biharmonic dx a)
  /\ forall i j k, (i < n)%nat -> (j < n)%nat -> (k < n)%nat ->
       get (biharmonic dx a) i j k
       = (stencil_sum n (laplacian dx a) i j k
          - 6 * get (laplacian dx a) i j k) / dx ^ 2.
Proof.
  intros Ha. split; [reflexivity|]. split.
  - apply shape3_biharmonic. exact Ha.
  - intros i j k Hi Hj Hk. unfold biharmonic.
    apply get_laplacian; try assumption. apply shape3_laplacian. exact Ha.
Qed.

Lemma biharmonic_is_laplacian_twice_witness :
  biharmonic (1 / 2) sample_field
  = laplacian (1 / 2) (laplacian (1 / 2) sample_field)
  /\ shape3 3 (biharmonic (1 / 2) sample_field).
Proof.
  destruct (biharmonic_is_laplacian_twice 3 (1 / 2) sample_field) as [H1 [H2 _]].
  - exact shape3_sample_field.
  - split; [exact H1 | exact H2].
Defined.

(** ** The loop *)

Lemma body_well_formed (n : nat) (dx dt : R) (N : Z) (st : state) :
  (0 < n)%nat -> well_formed n st ->
  exists st',
    body dx dt N st = Ok st'
    /\ well_formed n st'
    /\ (exists ext, mem st' = mem st ++ ext)
    /\ frames st' = frames st ++ [ZSlice (u st') (Z.to_nat (N / 2))].
Proof.
  intros Hn [Hu [Ha Hb]].
  destruct (body_vars n dx dt N st Hn Hu Ha Hb)
    as [st' [Hbody [Hcur [Hprev [Hu' [_ [Hext Hfr]]]]]]].
  exists st'. split; [exact Hbody|]. split; [|split; assumption].
  unfold well_formed. split; [exact Hu'|]. split.
  - rewrite Hcur. apply shape3_apply_boundary, shape3_next_field; assumption.
  - rewrite Hprev. exact Ha.
Qed.

(** [m] iterations from a well-formed state succeed; they append [m] frames,
    the i-th being the z-slice of the array that [u] names after i+1
    iterations, and that array is the same in the final store. *)
Lemma loop_frames (n : nat) (dx dt : R) (N : Z) :
  (0 < n)%nat ->
  forall (m : nat) (st : state),
    well_formed n st ->
    exists st' fr,
      loop m (body dx dt N) st = Ok st'
      /\ well_formed n st'
      /\ (exists ext, mem st' = mem st ++ ext)
      /\ frames st' = frames st ++ fr
      /\ length fr = m
      /\ forall i, (i < m)%nat ->
           exists sti,
             loop (S i) (body dx dt N) st = Ok sti
             /\ well_formed n sti
             /\ nth i fr (ZSlice 0%nat 0%nat) = ZSlice (u sti) (Z.to_nat (N / 2))
             /\ deref (mem st') (u sti) = deref (mem sti) (u sti).
Proof.
  intros Hn m. induction m as [|m IH]; intros st Hwf.
  - exists st, []. simpl. repeat split; try apply Hwf.
    + exists []. rewrite app_nil_r. reflexivity.
    + rewrite app_nil_r. reflexivity.
    + intros i Hi. lia.
  - destruct (body_well_formed n dx dt N st Hn Hwf)
      as [st1 [Hbody [Hwf1 [[ext1 Hext1] Hfr1]]]].
    destruct (IH st1 Hwf1)
      as [st' [fr [Hloop [Hwf' [[ext Hext] [Hfr [Hlen Hall]]]]]]].
    exists st', (ZSlice (u st1) (Z.to_nat (N / 2)) :: fr).
    split; [simpl; rewrite Hbody; simpl; exact Hloop|].
    split; [exact Hwf'|].
    split; [exists (ext1 ++ ext); rewrite Hext, Hext1, app_assoc; reflexivity|].
    split; [rewrite Hfr, Hfr1, <- app_assoc; reflexivity|].
    split; [simpl; rewrite Hlen; reflexivity|].
    intros [|i] Hi.
    + exists st1. split; [simpl; rewrite Hbody; reflexivity|].
      split; [exact Hwf1|]. split; [reflexivity|].
      rewrite Hext. apply deref_app_old. apply Hwf1.
    + destruct (Hall i ltac:(lia)) as [sti [Hli [Hwfi [Hnth Hd]]]].
      exists sti. split.
      * change (loop (S (S i)) (body dx dt N) st)
          with (bind (body dx dt N st) (loop (S i) (body dx dt N))).
        rewrite Hbody. exact Hli.
      * split; [exact Hwfi|]. split; [exact Hnth | exact Hd].
Qed.

Lemma length_linspace (a b : R) (num : nat) : length (linspace a b num) = num.
Proof.
  unfold linspace.
  assert (H : forall y : list R,
             length (if (1 <? num)%nat
                     then upd (last_idx y) (fun _ => b) y else y) = length y).
  { intros y. destruct (1 <? num)%nat; [apply length_upd | reflexivity]. }
  rewrite H, length_map.
  destruct (num - 1)%nat; [|destruct (Req_dec_T _ _)];
    rewrite !length_map, length_seq; reflexivity.
Qed.

Lemma well_formed_init (n : nat) (u0 : Field3D) :
  shape3 n u0 -> well_formed n (init_state u0).
Proof.
  intros H. unfold well_formed, init_state, deref. simpl.
  rewrite copy_id. split; [lia|]. split; exact H.
Qed.

Lemma shape2_zslice (n k : nat) (a : Field3D) :
  shape3 n a -> shape2 n (zslice k a).
Proof.
  intros Ha. unfold zslice. apply shape2_nth. split.
  - rewrite length_map. apply (shape3_length _ _ Ha).
  - intros i Hi.
    rewrite (nth_map_in _ _ _ []) by (rewrite (shape3_length _ _ Ha); lia).
    rewrite length_map. apply (shape3_plane n); assumption.
Qed.

Lemma nth_zslice (n k : nat) (a : Field3D) (i j : nat) :
  shape3 n a -> (i < n)%nat -> (j < n)%nat ->
  nth j (nth i (zslice k a) []) 0 = get a i j k.
Proof.
  intros Ha Hi Hj. unfold zslice, get.
  rewrite (nth_map_in _ _ _ []) by (rewrite (shape3_length _ _ Ha); lia).
  rewrite (nth_map_in _ _ _ []) by (rewrite (shape3_plane n); assumption).
  reflexivity.
Qed.

(** ** The whole run *)

Lemma run_loop (p : params) :
  dt p <> 0 -> (N p <> 1)%Z -> (0 <= N p)%Z ->
  run p
  = loop (Z.to_nat (steps_of p)) (body (L p / IZR (N p - 1)) (dt p) (N p))
         (init_state (initial_condition (grid p) (grid p) (grid p))).
Proof.
  intros Hdt HN1 HN0. unfold run.
  destruct (Req_dec_T (dt p) 0) as [E|_]; [contradiction|].
  replace (N p - 1 =? 0)%Z with false by (symmetry; apply Z.eqb_neq; lia).
  replace (N p <? 0)%Z with false by (symmetry; apply Z.ltb_ge; lia).
  reflexivity.
Qed.

Lemma py_int_IZR (z : Z) : py_int (IZR z) = z.
Proof.
  unfold py_int. destruct (Rle_dec 0 (IZR z)) as [H|H].
  - symmetry. apply Int_part_spec. lra.
  - rewrite <- opp_IZR.
    replace (Int_part (IZR (- z))) with (- z)%Z; [lia|].
    apply Int_part_spec. lra.
Qed.

Lemma deref_modify (h : heap) (l : loc) (f : Field3D -> Field3D) :
  (l < length h)%nat -> deref (modify h l f) l = f (deref h l).
Proof.
  intros Hl. unfold deref, modify. rewrite nth_upd by exact Hl.
  rewrite Nat.eqb_refl. reflexivity.
Qed.

Lemma run_frames (p : params) :
  dt p <> 0 -> (2 <= N p)%Z ->
  let n := Z.to_nat (N p) in
  let step := body (L p / IZR (N p - 1)) (dt p) (N p) in
  let st0 := init_state (initial_condition (grid p) (grid p) (grid p)) in
  exists st',
    run p = Ok st'
    /\ well_formed n st'
    /\ length (frames st') = Z.to_nat (steps_of p)
    /\ forall i, (i < Z.to_nat (steps_of p))%nat ->
         exists sti,
           loop (S i) step st0 = Ok sti
           /\ well_formed n sti
           /\ nth i (frames st') (ZSlice 0%nat 0%nat)
              = ZSlice (u sti) (Z.to_nat (N p / 2))
           /\ deref (mem st') (u sti) = deref (mem sti) (u sti).
Proof.
  intros Hdt HN n step st0.
  assert (Hn : (0 < n)%nat) by (unfold n; lia).
  assert (Hwf : well_formed n st0).
  { apply well_formed_init, shape3_initial_condition.
    unfold grid. apply length_linspace. }
  destruct (loop_frames n (L p / IZR (N p - 1)) (dt p) (N p) Hn
                        (Z.to_nat (steps_of p)) st0 Hwf)
    as [st' [fr [Hloop [Hwf' [_ [Hfr [Hlen Hall]]]]]]].
  exists st'. split; [rewrite run_loop by (try exact Hdt; lia); exact Hloop|].
  split; [exact Hwf'|].
  simpl in Hfr. subst fr.
  split; [exact Hlen | exact Hall].
Qed.

(** C5, as the code has it.  For a configuration that reaches the loop
    (dt <> 0, N >= 2) the run ends with exactly [steps] frames; the i-th
    frame is the z-slice at index N // 2 of the array that [u] names after
    the (i+1)-th iteration, an (N,N) cross-section whose (x,y) entry is that
    field's entry (x, y, N // 2); the frame is a view of that array, and no
    later iteration writes the array, so the frame still reads in the final
    store what it read when it was taken. *)
Theorem frames_are_slices_of_each_step (p : params) :
  dt p <> 0 -> (2 <= N p)%Z ->
  let n := Z.to_nat (N p) in
  let mid := Z.to_nat (N p / 2) in
  let step := body (L p / IZR (N p - 1)) (dt p) (N p) in
  let st0 := init_state (initial_condition (grid p) (grid p) (grid p)) in
  exists st',
    run p = Ok st'
    /\ length (frames st') = Z.to_nat (steps_of p)
    /\ forall i, (i < Z.to_nat (steps_of p))%nat ->
         exists sti,
           loop (S i) step st0 = Ok sti
           /\ nth i (frames st') (ZSlice 0%nat 0%nat) = ZSlice (u sti) mid
           /\ read_view (mem st') (nth i (frames st') (ZSlice 0%nat 0%nat))
              = zslice mid (deref (mem sti) (u sti))
           /\ shape2 n (zslice mid (deref (mem sti) (u sti)))
           /\ forall x y, (x < n)%nat -> (y < n)%nat ->
                nth y (nth x (zslice mid (deref (mem sti) (u sti))) []) 0
                = get (deref (mem sti) (u sti)) x y mid.
Proof.
  intros Hdt HN n mid step st0.
  destruct (run_frames p Hdt HN) as [st' [Hrun [_ [Hlen Hall]]]].
  exists st'. split; [exact Hrun|]. split; [exact Hlen|].
  intros i Hi. destruct (Hall i Hi) as [sti [Hli [Hwfi [Hnth Hd]]]].
  exists sti. split; [exact Hli|]. split; [exact Hnth|].
  destruct Hwfi as [_ [Hsh _]].
  split; [|split].
  - rewrite Hnth. simpl. fold mid. rewrite Hd. reflexivity.
  - apply shape2_zslice. exact Hsh.
  - intros x y Hx Hy. apply (nth_zslice n); assumption.
Qed.

Lemma steps_of_sample_params : steps_of sample_params = 1%Z.
Proof.
  unfold steps_of, sample_params. simpl.
  replace (1 / 1) with (IZR 1) by field. apply py_int_IZR.
Qed.

Lemma frames_are_slices_of_each_step_witness :
  exists st', run sample_params = Ok st' /\ length (frames st') = 1%nat.
Proof.
  destruct (frames_are_slices_of_each_step sample_params) as [st' [Hr [Hl _]]].
  - simpl. lra.
  - simpl. lia.
  - exists st'. split; [exact Hr|].
    rewrite Hl, steps_of_sample_params. reflexivity.
Defined.

(** C5, as stated, fails on the part that calls a frame an independent
    array: after the one-step run on three grid points the frame is a view
    of the array that [u] names, and an in-place write to that array is
    seen through the frame. *)
Lemma frame_shares_storage_with_current :
  exists st' v,
    run sample_params = Ok st'
    /\ In v (frames st')
    /\ ~ independent_of_store (mem st') v.
Proof.
  assert (Hdt : dt sample_params <> 0) by (simpl; lra).
  assert (HN : (2 <= N sample_params)%Z) by (simpl; lia).
  destruct (run_frames sample_params Hdt HN) as [st' [Hrun [Hwf [Hlen Hall]]]].
  rewrite steps_of_sample_params in Hlen, Hall.
  destruct (Hall 0%nat ltac:(simpl; lia)) as [sti [Hli [_ [Hnth _]]]].
  assert (Hsame : sti = st').
  { rewrite run_loop in Hrun by (simpl; try lra; lia).
    rewrite steps_of_sample_params in Hrun.
    change (Z.to_nat 1) with 1%nat in Hrun.
    rewrite Hrun in Hli. injection Hli as E. symmetry. exact E. }
  subst sti.
  change (Z.to_nat (N sample_params / 2)) with 1%nat in Hnth.
  exists st', (ZSlice (u st') 1%nat).
  split; [exact Hrun|]. split.
  - rewrite <- Hnth. apply nth_In. rewrite Hlen. simpl. lia.
  - intros Hind.
    specialize (Hind (u st') (emap (fun x => x + 1))).
    destruct Hwf as [Hu [Hsh _]]. simpl in Hsh.
    change (Z.to_nat 3) with 3%nat in Hsh.
    unfold read_view in Hind. rewrite deref_modify in Hind by exact Hu.
    assert (H00 : nth 0 (nth 0 (zslice 1 (emap (fun x => x + 1)
                                  (deref (mem st') (u st')))) []) 0
                  = nth 0 (nth 0 (zslice 1 (deref (mem st') (u st'))) []) 0)
      by (rewrite Hind; reflexivity).
    rewrite !(nth_zslice 3) in H00;
      try lia; try (apply shape3_emap); try exact Hsh.
    rewrite (get_emap 3) in H00; try lia; try exact Hsh.
    lra.
Qed.

(** ** Configurations the run does not reject *)









(** ** Grid construction *)

Lemma nth_linspace (a b : R) (num i : nat) :
  (2 <= num)%nat -> (i < num)%nat ->
  nth i (linspace a b num) 0
  = if (i =? num - 1)%nat then b
    else INR i * ((b - a) / INR (num - 1)) + a.
Proof.
  intros Hnum Hi. unfold linspace.
  replace (1 <? num)%nat with true by (symmetry; apply Nat.ltb_lt; lia).
  set (y := map (fun v => v + a) _).
  assert (Hy : length y = num).
  { unfold y. rewrite length_map.
    destruct (num - 1)%nat; [|destruct (Req_dec_T _ _)];
      rewrite !length_map, length_seq; reflexivity. }
  rewrite nth_upd by (rewrite Hy; exact Hi).
  unfold last_idx. rewrite Hy.
  destruct (i =? num - 1)%nat; [reflexivity|].
  unfold y.
  assert (Hseq : forall f : R -> R,
             nth i (map f (map INR (seq 0 num))) 0 = f (INR i)).
  { intros f. rewrite (nth_map_in _ _ _ 0)
      by (rewrite length_map, length_seq; exact Hi).
    rewrite (nth_map_in _ _ _ 0%nat) by (rewrite length_seq; exact Hi).
    rewrite seq_nth by exact Hi. reflexivity. }
  destruct (num - 1)%nat as [|d] eqn:Hd; [lia|].
  assert (HS : INR (S d) <> 0) by (apply not_0_INR; lia).
  destruct (Req_dec_T ((b - a) / INR (S d)) 0) as [E|E].
  - rewrite (nth_map_in _ _ _ 0)
      by (rewrite !length_map, length_seq; exact Hi).
    rewrite Hseq. field. exact HS.
  - rewrite (nth_map_in _ _ _ 0)
      by (rewrite !length_map, length_seq; exact Hi).
    rewrite Hseq. reflexivity.
Qed.

Lemma nth_grid (p : params) (i : nat) :
  (2 <= N p)%Z -> (i < Z.to_nat (N p))%nat ->
  nth i (grid p) 0 = INR i * (L p / IZR (N p - 1)).
Proof.
  intros HN Hi. unfold grid.
  assert (HR : INR (Z.to_nat (N p) - 1) = IZR (N p - 1))
    by (rewrite INR_IZR_INZ; f_equal; lia).
  assert (Hnz : IZR (N p - 1) <> 0)
    by (apply not_0_IZR; lia).
  rewrite nth_linspace by lia. rewrite HR.
  destruct (i =? Z.to_nat (N p) - 1)%nat eqn:E.
  - apply Nat.eqb_eq in E. rewrite E, HR. field. exact Hnz.
  - field. exact Hnz.
Qed.



(** ** Linearity *)






(** ** Totals *)













(** ** A step of length zero *)



Lemma get_initial_condition (n : nat) (x : list R) (i j k : nat) :
  length x = n -> (i < n)%nat -> (j < n)%nat -> (k < n)%nat ->
  get (initial_condition x x x) i j k
  = sin (PI * nth i x 0) * sin (PI * nth j x 0) * sin (PI * nth k x 0).
Proof.
  intros Hx Hi Hj Hk. unfold get, initial_condition.
  rewrite (nth_map_in _ _ _ 0) by lia.
  rewrite (nth_map_in _ _ _ 0) by lia.
  rewrite (nth_map_in _ _ _ 0) by lia.
  reflexivity.
Qed.




(** * Further properties of the operators *)

(** ** Rolls compose *)

Lemma wrap_of_nat (n : nat) (z : Z) :
  (0 < n)%nat -> Z.of_nat (wrap n z) = (z mod Z.of_nat n)%Z.
Proof.
  intros Hn. unfold wrap.
  pose proof (Z.mod_pos_bound z (Z.of_nat n) ltac:(lia)). lia.
Qed.

Lemma wrap_wrap_sub (n : nat) (z c : Z) :
  (0 < n)%nat -> wrap n (Z.of_nat (wrap n z) - c) = wrap n (z - c).
Proof.
  intros Hn. rewrite wrap_of_nat by exact Hn. unfold wrap.
  rewrite Zminus_mod_idemp_l. reflexivity.
Qed.

Lemma wrap_wrap_add (n : nat) (z c : Z) :
  (0 < n)%nat -> wrap n (Z.of_nat (wrap n z) + c) = wrap n (z + c).
Proof.
  intros Hn. rewrite wrap_of_nat by exact Hn. unfold wrap.
  rewrite Zplus_mod_idemp_l. reflexivity.
Qed.

Lemma wrap_small (n i : nat) : (i < n)%nat -> wrap n (Z.of_nat i) = i.
Proof. intros Hi. unfold wrap. rewrite Z.mod_small by lia. lia. Qed.

Lemma roll_zero {A : Type} (a : list A) : roll 0 a = a.
Proof.
  destruct a as [|x a]; [reflexivity|]. unfold roll.
  rewrite Z.mod_0_l by (simpl; lia). simpl. rewrite app_nil_r. reflexivity.
Qed.

Lemma roll_roll {A : Type} (s t : Z) (a : list A) :
  roll s (roll t a) = roll (s + t) a.
Proof.
  destruct a as [|x a]; [reflexivity|].
  set (l := x :: a).
  assert (Hn : (0 < length l)%nat) by (simpl; lia).
  apply (list_ext _ _ x).
  - rewrite !length_roll. reflexivity.
  - rewrite !length_roll. intros i Hi.
    rewrite nth_roll by (rewrite length_roll; exact Hi).
    rewrite length_roll.
    rewrite nth_roll by (apply wrap_lt; exact Hn).
    rewrite nth_roll by exact Hi.
    rewrite wrap_wrap_sub by exact Hn.
    f_equal. f_equal. lia.
Qed.

Lemma roll_axis_roll_axis (s t : Z) (ax : nat) (a : Field3D) :
  roll_axis s ax (roll_axis t ax a) = roll_axis (s + t) ax a.
Proof.
  destruct ax as [|[|ax]]; simpl.
  - apply roll_roll.
  - rewrite map_map. apply map_ext. intros p. apply roll_roll.
  - rewrite map_map. apply map_ext. intros p.
    rewrite map_map. apply map_ext. intros r. apply roll_roll.
Qed.

Lemma roll_axis_zero (ax : nat) (a : Field3D) : roll_axis 0 ax a = a.
Proof.
  destruct ax as [|[|ax]]; simpl.
  - apply roll_zero.
  - rewrite (map_ext _ (fun p : list (list R) => p)); [apply map_id|].
    intros p. apply roll_zero.
  - rewrite (map_ext _ (fun p : list (list R) => p)); [apply map_id|].
    intros p. rewrite (map_ext _ (fun r : list R => r)); [apply map_id|].
    intros r. apply roll_zero.
Qed.

(** X1.  Rolls along one axis compose by adding their shifts and a roll by 0
    changes nothing; so the two rolls the Laplacian takes along each axis,
    by 1 and by -1, undo each other, in either order. *)
Theorem rolls_compose_and_cancel (s t : Z) (ax : nat) (a : Field3D) :
  roll_axis s ax (roll_axis t ax a) = roll_axis (s + t) ax a
  /\ roll_axis (-1) ax (roll_axis 1 ax a) = a
  /\ roll_axis 1 ax (roll_axis (-1) ax a) = a.
Proof.
  split; [apply roll_axis_roll_axis|].
  split; rewrite roll_axis_roll_axis; apply roll_axis_zero.
Qed.

(** ** The stencil commutes with rolls *)

Lemma get_roll_axis (n : nat) (s : Z) (ax : nat) (a : Field3D) (i j k : nat) :
  shape3 n a -> (i < n)%nat -> (j < n)%nat -> (k < n)%nat ->
  get (roll_axis s ax a) i j k
  = match ax with
    | O => get a (wrap n (Z.of_nat i - s)) j k
    | S O => get a i (wrap n (Z.of_nat j - s)) k
    | _ => get a i j (wrap n (Z.of_nat k - s))
    end.
Proof.
  intros Ha Hi Hj Hk. destruct ax as [|[|ax]].
  - apply get_roll_axis0; assumption.
  - apply get_roll_axis1; assumption.
  - apply (get_roll_axis2 n); assumption.
Qed.

Ltac normalise_shift i s :=
  try replace (Z.of_nat i - 1 - s)%Z with (Z.of_nat i - s - 1)%Z by lia;
  try replace (Z.of_nat i + 1 - s)%Z with (Z.of_nat i - s + 1)%Z by lia.

Lemma laplacian_roll_axis (n : nat) (dx : R) (s : Z) (ax : nat) (a : Field3D) :
  shape3 n a ->
  laplacian dx (roll_axis s ax a) = roll_axis s ax (laplacian dx a).
Proof.
  intros Ha.
  pose proof (shape3_roll_axis n s ax a Ha) as Hr.
  pose proof (shape3_laplacian n dx a Ha) as Hl.
  apply (field_ext n).
  - apply shape3_laplacian. exact Hr.
  - apply shape3_roll_axis. exact Hl.
  - intros i j k Hi Hj Hk.
    assert (Hn : (0 < n)%nat) by lia.
    rewrite (get_laplacian n) by assumption.
    rewrite (get_roll_axis n) by assumption.
    unfold stencil_sum.
    rewrite !(get_roll_axis n) by (try apply wrap_lt; assumption).
    destruct ax as [|[|ax]];
      rewrite (get_laplacian n) by (try apply wrap_lt; assumption);
      unfold stencil_sum;
      rewrite ?wrap_wrap_sub, ?wrap_wrap_add by exact Hn;
      normalise_shift i s; normalise_shift j s; normalise_shift k s;
      reflexivity.
Qed.

(** X2.  The Laplacian and the biharmonic operator commute with a roll of
    the field along any of the three axes: the periodic stencil has no
    preferred origin. *)
Theorem stencils_commute_with_rolls (n : nat) (dx : R) (s : Z) (ax : nat)
        (a : Field3D) :
  shape3 n a ->
  laplacian dx (roll_axis s ax a) = roll_axis s ax (laplacian dx a)
  /\ biharmonic dx (roll_axis s ax a) = roll_axis s ax (biharmonic dx a).
Proof.
  intros Ha. split; [apply (laplacian_roll_axis n); exact Ha|].
  unfold biharmonic. rewrite (laplacian_roll_axis n) by exact Ha.
  apply (laplacian_roll_axis n). apply shape3_laplacian. exact Ha.
Qed.

Lemma stencils_commute_with_rolls_witness :
  laplacian (1 / 2) (roll_axis 1 2 sample_field)
  = roll_axis 1 2 (laplacian (1 / 2) sample_field).
Proof.
  apply (stencils_commute_with_rolls 3 (1 / 2) 1 2 sample_field).
  exact shape3_sample_field.
Defined.

(** ** The boundary overwrite *)

(** X3.  Applying the boundary statements twice is the same as applying
    them once, and they change no entry that is off the six faces. *)
Theorem boundary_overwrite_idempotent (n : nat) (a : Field3D) :
  shape3 n a ->
  apply_boundary (apply_boundary a) = apply_boundary a
  /\ forall i j k, (i < n)%nat -> (j < n)%nat -> (k < n)%nat ->
       on_face n i j k = false ->
       get (apply_boundary a) i j k = get a i j k.
Proof.
  intros Ha. pose proof (shape3_apply_boundary n a Ha) as Hb. split.
  - apply (field_ext n); try assumption.
    + apply shape3_apply_boundary. exact Hb.
    + intros i j k Hi Hj Hk.
      rewrite (get_apply_boundary n) by assumption.
      destruct (on_face n i j k) eqn:E; [|reflexivity].
      rewrite (get_apply_boundary n) by assumption. rewrite E. reflexivity.
  - intros i j k Hi Hj Hk E.
    rewrite (get_apply_boundary n) by assumption. rewrite E. reflexivity.
Qed.

Lemma boundary_overwrite_idempotent_witness :
  apply_boundary (apply_boundary sample_field) = apply_boundary sample_field
  /\ get (apply_boundary sample_field) 1 1 1 = get sample_field 1 1 1.
Proof.
  destruct (boundary_overwrite_idempotent 3 sample_field) as [H1 H2].
  - exact shape3_sample_field.
  - split; [exact H1|]. apply H2; try lia. reflexivity.
Defined.

(** ** Constant fields *)





(** ** The recurrence as a map on pairs of fields *)









(** ** The number of steps *)


Lemma py_int_below_one (r : R) : r < 1 -> (py_int r <= 0)%Z.
Proof.
  intros Hr. unfold py_int. destruct (Rle_dec 0 r) as [H|H].
  - replace (Int_part r) with 0%Z; [lia|]. apply Int_part_spec. lra.
  - assert (H0 : 0 <= - r) by lra.
    destruct (base_Int_part (- r)) as [H1 H2].
    assert (H3 : IZR (-1) < IZR (Int_part (- r))) by (simpl; lra).
    apply lt_IZR in H3. lia.
Qed.



(** X9.  When T / dt < 1, which covers T = 0 and every T and dt of opposite
    signs, the loop body never runs: a configuration that reaches the loop
    ends in the state the initialisation left, with no frame. *)
Theorem short_final_time_runs_no_step (p : params) :
  dt p <> 0 -> (2 <= N p)%Z -> T p / dt p < 1 ->
  (steps_of p <= 0)%Z
  /\ run p = Ok (init_state (initial_condition (grid p) (grid p) (grid p))).
Proof.
  intros Hdt HN Hr.
  assert (Hs : (steps_of p <= 0)%Z) by (apply py_int_below_one; exact Hr).
  split; [exact Hs|].
  rewrite run_loop by (try exact Hdt; lia).
  replace (Z.to_nat (steps_of p)) with 0%nat by lia. reflexivity.
Qed.

Lemma short_final_time_runs_no_step_witness :
  run zero_steps_params
  = Ok (init_state (initial_condition (grid zero_steps_params)
                      (grid zero_steps_params) (grid zero_steps_params))).
Proof.
  destruct (short_final_time_runs_no_step zero_steps_params) as [_ H].
  - simpl. lra.
  - simpl. lia.
  - simpl. lra.
  - exact H.
Defined.

(** ** Grids of non-positive length *)

(** X10.  The grid is built for any L once N >= 2: the i-th coordinate is
    i L / (N - 1), from 0 to L.  For L < 0 the coordinates decrease
    strictly, and for L = 0 they are all 0, so that the initial field is 0
    everywhere. *)
Theorem grid_of_nonpositive_length (p : params) :
  (2 <= N p)%Z -> L p <= 0 ->
  let n := Z.to_nat (N p) in
  nth 0 (grid p) 0 = 0
  /\ nth (n - 1) (grid p) 0 = L p
  /\ (L p < 0 -> forall i j, (i < j)%nat -> (j < n)%nat ->
                  nth j (grid p) 0 < nth i (grid p) 0)
  /\ (L p = 0 ->
        (forall i, (i < n)%nat -> nth i (grid p) 0 = 0)
        /\ forall i j k, (i < n)%nat -> (j < n)%nat -> (k < n)%nat ->
             get (initial_condition (grid p) (grid p) (grid p)) i j k = 0).
Proof.
  intros HN HL n.
  assert (Hpos : 0 < IZR (N p - 1)) by (apply IZR_lt; lia).
  assert (Hlen : length (grid p) = n) by (unfold grid; apply length_linspace).
  split; [rewrite nth_grid by (unfold n in *; lia); simpl; lra|].
  split.
  { rewrite nth_grid by (unfold n in *; lia).
    replace (INR (n - 1)) with (IZR (N p - 1))
      by (rewrite INR_IZR_INZ; f_equal; unfold n; lia).
    field. lra. }
  split.
  - intros HLn i j Hij Hj. rewrite !nth_grid by (unfold n in *; lia).
    assert (Hdx : L p / IZR (N p - 1) < 0).
    { unfold Rdiv. apply Rmult_neg_pos; [exact HLn|].
      apply Rinv_0_lt_compat. exact Hpos. }
    apply lt_INR in Hij. nra.
  - intros HL0.
    assert (Hz : forall i, (i < n)%nat -> nth i (grid p) 0 = 0).
    { intros i Hi. rewrite nth_grid by (unfold n in *; lia).
      rewrite HL0. unfold Rdiv. ring. }
    split; [exact Hz|].
    intros i j k Hi Hj Hk.
    rewrite (get_initial_condition n) by assumption.
    rewrite (Hz i Hi), Rmult_0_r, sin_0. ring.
Qed.

Lemma grid_of_nonpositive_length_witness :
  nth 2 (grid {| L := -1; N := 3; T := 1; dt := 1; alpha := 1 |}) 0 = -1.
Proof.
  destruct (grid_of_nonpositive_length
              {| L := -1; N := 3; T := 1; dt := 1; alpha := 1 |})
    as [_ [H _]].
  - simpl. lia.
  - simpl. lra.
  - exact H.
Defined.

(** ** The initial field *)








(** ** Arrays of the store *)

(** X13.  An iteration from a well-formed state writes no array that existed
    before it: [u_next], [u_prev] and [u] afterwards name three fresh,
    pairwise distinct arrays, [u] and [u_next] holding the same values, and
    every older array reads as before. *)
Theorem iteration_allocates_fresh_arrays (n : nat) (dx dt : R) (Npts : Z)
        (st : state) :
  (0 < n)%nat -> well_formed n st ->
  exists st',
    body dx dt Npts st = Ok st'
    /\ (length (mem st) <= u_next st')%nat
    /\ (length (mem st) <= u_prev st')%nat
    /\ (length (mem st) <= u st')%nat
    /\ u_next st' <> u_prev st' /\ u_next st' <> u st' /\ u_prev st' <> u st'
    /\ deref (mem st') (u_next st') = deref (mem st') (u st')
    /\ forall l, (l < length (mem st))%nat ->
         deref (mem st') l = deref (mem st) l.
Proof.
  intros Hn [Hu [Ha Hb]]. eexists. split; [apply (body_eq n); assumption|].
  cbn [mem u u_prev u_next].
  repeat split; try lia.
  - match goal with
    | |- deref (?h ++ ?e) _ = _ => pose proof (deref_app_new h e 0) as H0
    end.
    rewrite Nat.add_0_r in H0. rewrite H0, deref_app_new. simpl.
    rewrite copy_id. reflexivity.
  - intros l Hl. apply deref_app_old. exact Hl.
Qed.

Lemma iteration_allocates_fresh_arrays_witness :
  exists st', body (1 / 2) (1 / 10) 3 sample_state = Ok st'
              /\ u_prev st' <> u st'.
Proof.
  destruct (iteration_allocates_fresh_arrays 3 (1 / 2) (1 / 10) 3 sample_state)
    as [st' [Hb [_ [_ [_ [_ [_ [Hd _]]]]]]]].
  - lia.
  - apply well_formed_init. exact shape3_sample_field.
  - exists st'. split; [exact Hb | exact Hd].
Defined.

(** ** Frames along the loop *)

Lemma loop_add (m k : nat) (f : state -> result state) (st : state) :
  loop (m + k) f st = bind (loop m f st) (loop k f).
Proof.
  revert st. induction m as [|m IH]; intros st; simpl; [reflexivity|].
  destruct (f st) as [st1|e]; simpl; [apply IH | reflexivity].
Qed.

Lemma deref_in_range (n : nat) (h : heap) (l : loc) :
  (0 < n)%nat -> shape3 n (deref h l) -> (l < length h)%nat.
Proof.
  intros Hn Hs. destruct (Nat.lt_ge_cases l (length h)) as [H|H]; [exact H|].
  unfold deref in Hs. rewrite nth_overflow in Hs by exact H.
  apply shape3_length in Hs. simpl in Hs. lia.
Qed.

(** X14.  The frame list only grows: after m + k iterations its first
    entries are the frames that m iterations produce, k frames follow, and
    each of the earlier frames reads in the later store exactly what it read
    after the m iterations. *)
Theorem frames_only_grow (n : nat) (dx dt : R) (Npts : Z) (m k : nat)
        (st : state) :
  (0 < n)%nat -> well_formed n st ->
  exists stm stmk fm fk,
    loop m (body dx dt Npts) st = Ok stm
    /\ loop (m + k) (body dx dt Npts) st = Ok stmk
    /\ frames stm = frames st ++ fm
    /\ frames stmk = frames stm ++ fk
    /\ length fm = m /\ length fk = k
    /\ forall v, In v fm -> read_view (mem stmk) v = read_view (mem stm) v.
Proof.
  intros Hn Hwf.
  destruct (loop_frames n dx dt Npts Hn m st Hwf)
    as [stm [fm [Hm [Hwfm [_ [Hfm [Hlm Hallm]]]]]]].
  destruct (loop_frames n dx dt Npts Hn k stm Hwfm)
    as [stmk [fk [Hk [_ [[ext Hext] [Hfk [Hlk _]]]]]]].
  exists stm, stmk, fm, fk.
  split; [exact Hm|].
  split; [rewrite loop_add, Hm; exact Hk|].
  split; [exact Hfm|]. split; [exact Hfk|].
  split; [exact Hlm|]. split; [exact Hlk|].
  intros v Hv.
  destruct (In_nth _ _ (ZSlice 0%nat 0%nat) Hv) as [i [Hi Hnth]].
  rewrite Hlm in Hi.
  destruct (Hallm i Hi) as [sti [_ [[_ [Hsh _]] [Hvi Hd]]]].
  rewrite <- Hnth, Hvi. unfold read_view.
  rewrite Hext. rewrite deref_app_old; [reflexivity|].
  apply (deref_in_range n); [exact Hn|]. rewrite Hd. exact Hsh.
Qed.

Lemma frames_only_grow_witness :
  exists stm stmk fk,
    loop 1 (body (1 / 2) (1 / 10) 3) sample_state = Ok stm
    /\ loop (1 + 2) (body (1 / 2) (1 / 10) 3) sample_state = Ok stmk
    /\ frames stmk = frames stm ++ fk.
Proof.
  destruct (frames_only_grow 3 (1 / 2) (1 / 10) 3 1 2 sample_state)
    as [stm [stmk [fm [fk [H1 [H2 [_ [H3 _]]]]]]]].
  - lia.
  - apply well_formed_init. exact shape3_sample_field.
  - exists stm, stmk, fk. split; [exact H1|]. split; [exact H2 | exact H3].
Defined.

Lemma loop_succ_zero_faces (n : nat) (dx dt : R) (Npts : Z) :
  (0 < n)%nat ->
  forall (m : nat) (st st' : state),
    well_formed n st ->
    loop (S m) (body dx dt Npts) st = Ok st' ->
    zero_on_faces n (deref (mem st') (u st')).
Proof.
  intros Hn m. induction m as [|m IH]; intros st st' Hwf Hl.
  - destruct Hwf as [Hu [Ha Hb]].
    destruct (body_vars n dx dt Npts st Hn Hu Ha Hb) as [s1 [Hbody [Hcur _]]].
    simpl in Hl. rewrite Hbody in Hl. simpl in Hl.
    injection Hl as E. subst s1. rewrite Hcur.
    intros i j k Hi Hj Hk Hf.
    rewrite (get_apply_boundary n)
      by (try apply shape3_next_field; assumption).
    rewrite Hf. reflexivity.
  - destruct (body_well_formed n dx dt Npts st Hn Hwf)
      as [s1 [Hbody [Hwf1 _]]].
    change (loop (S (S m)) (body dx dt Npts) st)
      with (bind (body dx dt Npts st) (loop (S m) (body dx dt Npts))) in Hl.
    rewrite Hbody in Hl. simpl bind in Hl.
    apply (IH s1); assumption.
Qed.

Lemma on_face_intro (n i j k : nat) :
  i = 0%nat \/ i = (n - 1)%nat \/ j = 0%nat \/ j = (n - 1)%nat
  \/ k = 0%nat \/ k = (n - 1)%nat ->
  on_face n i j k = true.
Proof.
  intros H. unfold on_face.
  destruct H as [E|[E|[E|[E|[E|E]]]]]; rewrite E;
    rewrite ?Nat.eqb_refl; repeat (rewrite ?Bool.orb_true_r; simpl);
    reflexivity.
Qed.

(** X15.  Every frame of a run has a border of zeros: its first and last
    rows and columns hold the boundary values of the field.  With N = 2 the
    slice index N // 2 = 1 is itself a face, so every frame is 0 everywhere;
    from N = 3 on the slice index is an interior index. *)
Theorem frames_have_zero_border (p : params) :
  dt p <> 0 -> (2 <= N p)%Z ->
  let n := Z.to_nat (N p) in
  (exists st',
     run p = Ok st'
     /\ forall i x y,
          (i < Z.to_nat (steps_of p))%nat -> (x < n)%nat -> (y < n)%nat ->
          x = 0%nat \/ x = (n - 1)%nat \/ y = 0%nat \/ y = (n - 1)%nat
          \/ N p = 2%Z ->
          nth y (nth x (read_view (mem st')
                          (nth i (frames st') (ZSlice 0%nat 0%nat))) []) 0 = 0)
  /\ ((3 <= N p)%Z -> (0 < N p / 2 < N p - 1)%Z).
Proof.
  intros Hdt HN n. split.
  - destruct (run_frames p Hdt HN) as [st' [Hrun [_ [_ Hall]]]].
    exists st'. split; [exact Hrun|].
    intros i x y Hi Hx Hy Hedge.
    destruct (Hall i Hi) as [sti [Hli [Hwfi [Hnth Hd]]]].
    assert (Hn : (0 < n)%nat) by (unfold n; lia).
    assert (Hwf0 : well_formed n
              (init_state (initial_condition (grid p) (grid p) (grid p)))).
    { apply well_formed_init, shape3_initial_condition.
      unfold grid. apply length_linspace. }
    pose proof (loop_succ_zero_faces n _ _ _ Hn i _ _ Hwf0 Hli) as Hz.
    destruct Hwfi as [_ [Hsh _]].
    rewrite Hnth. unfold read_view. rewrite Hd.
    rewrite (nth_zslice n) by assumption.
    assert (Hmid : (Z.to_nat (N p / 2) < n)%nat).
    { unfold n. apply Z2Nat.inj_lt; try lia.
      - apply Z.div_pos; lia.
      - apply Z.div_lt_upper_bound; lia. }
    apply Hz; try assumption.
    apply on_face_intro.
    destruct Hedge as [E|[E|[E|[E|E]]]]; try tauto.
    right. right. right. right. right. unfold n. rewrite E. reflexivity.
  - intros H3. split.
    + apply Z.div_str_pos. lia.
    + apply Z.div_lt_upper_bound; lia.
Qed.

Lemma frames_have_zero_border_witness :
  exists st', run sample_params = Ok st'.
Proof.
  destruct (frames_have_zero_border sample_params) as [[st' [H _]] _].
  - simpl. lra.
  - simpl. lia.
  - exists st'. exact H.
Defined.

(** X16.  A run that reaches the loop never fails in it and keeps the shape
    of the fields: at the end the current and the previous field are
    (N,N,N) arrays, whatever the number of steps, L, T and dt <> 0. *)
Theorem run_keeps_field_shape (p : params) :
  dt p <> 0 -> (2 <= N p)%Z ->
  exists st',
    run p = Ok st'
    /\ shape3 (Z.to_nat (N p)) (deref (mem st') (u st'))
    /\ shape3 (Z.to_nat (N p)) (deref (mem st') (u_prev st')).
Proof.
  intros Hdt HN.
  destruct (run_frames p Hdt HN) as [st' [Hrun [[_ [Hu Hp]] _]]].
  exists st'. split; [exact Hrun|]. split; assumption.
Qed.

Lemma run_keeps_field_shape_witness :
  exists st', run sample_params = Ok st'
              /\ shape3 3 (deref (mem st') (u st')).
Proof.
  destruct (run_keeps_field_shape sample_params) as [st' [H1 [H2 _]]].
  - simpl. lra.
  - simpl. lia.
  - exists st'. split; [exact H1 | exact H2].
Defined.

(** ** The stencil is symmetric *)








